(** * access-mini: the permission registry and its dispatcher

  A shallow embedding of [src/index.ts].  The runtime part of the module is
  [createPermissionDefinition], [createPermissions] and the two closures
  [get] and [can] that [createPermissions] returns; everything else in the
  file is type-level TypeScript and has no runtime content.

  Conventions of the embedding:
  - JavaScript values are the inductive [value]; an optional parameter is an
    [option value], and an omitted one reads as [undefined] ([param]);
  - the private [Map] of an instance and the caller's world (whatever the
    handlers read or write) make up [State]; code runs in the monad [M],
    which threads the state and carries JavaScript completions;
  - a handler is a function of the content of its argument and of the
    caller's world; it cannot reach the private [Map];
  - [def.handlers] is an object literal: its own properties are a [gmap],
    and the members every literal inherits from [Object.prototype] are
    visible to the [in] operator and to property reads.  A [gmap] keeps no
    insertion order; the one place where the order of the keys shows, a
    handlers object with an own key [__proto__] (see [obj_set]), is kept out
    of the statements it would affect by a hypothesis. *)

From Stdlib Require Import ZArith.
From stdpp Require Import base option list strings gmap fin_maps.

Local Open Scope string_scope.
Local Set Warnings "-register-all,-clear-no-such-hyp".

(** ** Values *)

Inductive value : Type :=
| VUndefined
| VNull
| VBool (b : bool)
| VNum (n : Z)
| VStr (s : string)
| VObj (props : list (string * value))   (* own properties, in insertion order *)
| VPromise (resolution : value).         (* a pending value that fulfils with [resolution] *)

(** [v === undefined] *)
Definition is_undefined (v : value) : bool :=
  match v with VUndefined => true | _ => false end.

(** The value of a formal parameter: an omitted argument reads as [undefined]. *)
Definition param (a : option value) : value := default VUndefined a.

(** [o.k] on a plain object; a missing property reads as [undefined]. *)
Fixpoint lookup_prop (k : string) (props : list (string * value)) : value :=
  match props with
  | [] => VUndefined
  | (k', v) :: rest => if String.eqb k' k then v else lookup_prop k rest
  end.

Definition field (k : string) (o : value) : value :=
  match o with VObj props => lookup_prop k props | _ => VUndefined end.

(** The object literal [{ actor, entity, attributes }]. *)
Definition Args (actor entity attributes : value) : value :=
  VObj [("actor", actor); ("entity", entity); ("attributes", attributes)].

(** ** Completions *)

Inductive exn : Type :=
| Error (message : string)       (* [new Error(message)] *)
| TypeError (message : string)   (* raised by the engine, e.g. calling a non-function *)
| Thrown (v : value).            (* anything else a handler throws *)

(** How a call ends.  [Native k arg] stands for the outcome of the engine's
  built-in [Object.prototype[k]] called on the handlers object with the
  single argument [arg], for the built-ins that run no code of the handlers
  object; the embedding does not interpret them further. *)
Inductive completion (X : Type) : Type :=
| Return (x : X)
| Throw (e : exn)
| Native (k : string) (arg : value).

Arguments Return {X} x.
Arguments Throw {X} e.
Arguments Native {X} k arg.

(** ** Plain objects *)

(** The string-keyed members of [Object.prototype]. *)
Definition object_prototype_keys : list string :=
  [ "constructor"; "__defineGetter__"; "__defineSetter__"; "hasOwnProperty";
  "__lookupGetter__"; "__lookupSetter__"; "isPrototypeOf";
  "propertyIsEnumerable"; "toString"; "valueOf"; "__proto__";
  "toLocaleString" ].

(** What a property read on an object literal finds, seen from the call
    that follows the read. *)
Inductive member (V : Type) : Type :=
| Own (v : V)            (* an own property *)
| Inherited (k : string) (* a function of [Object.prototype] that runs no
                            code of the object *)
| ViaToString (v : V)    (* [Object.prototype.toLocaleString], on an object
                            with the own property [toString]: it calls
                            [this.toString()] and returns what that returns *)
| NotCallable            (* the key [__proto__]: the read gives the object
                            [Object.prototype], which is not a function *)
| Absent.                (* [undefined] *)

Arguments Own {V} v.
Arguments Inherited {V} k.
Arguments ViaToString {V} v.
Arguments NotCallable {V}.
Arguments Absent {V}.

Section Literal.
Context {V : Type}.

(** [k in o] for an object literal [o]: own properties and the prototype. *)
Definition has_property (o : gmap string V) (k : string) : bool :=
  bool_decide (is_Some (o !! k)) || bool_decide (k ∈ object_prototype_keys).

(** [o[k]] for an object literal [o]. *)
Definition get_property (o : gmap string V) (k : string) : member V :=
  match o !! k with
  | Some v => Own v
  | None =>
      if decide (k = "__proto__") then NotCallable
      else if decide (k = "toLocaleString") then
        match o !! "toString" with
        | Some v => ViaToString v
        | None => Inherited k
        end
      else if bool_decide (k ∈ object_prototype_keys) then Inherited k
      else Absent
  end.

(** [Object.keys(o)]: the own properties only. *)
Definition Object_keys (o : gmap string V) : list string := (map_to_list o).*1.
End Literal.

(** An object that starts as [{}] and is filled by assignments [o[k] = v]
  whose right-hand sides are functions.  Assigning to the key [__proto__]
  runs the setter of [Object.prototype] and replaces the prototype of [o]
  instead of creating an own property; reading [o["__proto__"]] then gives
  that function back.  What the embedding leaves out: once a function is the
  prototype, an assignment to a key that functions hold read-only ([name],
  [length]) throws in strict code, and whether that happens depends on the
  order of the keys.  The loops that fill such objects are therefore
  faithful for handlers objects without an own key [__proto__], and for
  those with one as long as none of these keys follows it. *)
Record Obj (V : Type) : Type := mkObj {
  own_props : gmap string V;
  proto_slot : option V
}.

Arguments mkObj {V} _ _.
Arguments own_props {V} _.
Arguments proto_slot {V} _.

Section Obj.
Context {V : Type}.

Definition obj_empty : Obj V := mkObj ∅ None.

Definition obj_set (o : Obj V) (k : string) (v : V) : Obj V :=
  if decide (k = "__proto__")
  then mkObj (own_props o) (Some v)
  else mkObj (<[k := v]> (own_props o)) (proto_slot o).

(** [o[k]], when it is one of the functions stored by [obj_set]; [None]
    when the read falls through to the engine's prototypes. *)
Definition obj_get (o : Obj V) (k : string) : option V :=
  match own_props o !! k with
  | Some v => Some v
  | None => if decide (k = "__proto__") then proto_slot o else None
  end.

(** [Object.keys(o)] as a set. *)
Definition obj_keys (o : Obj V) : gset string := dom (own_props o).

(** No assignment creates an own property named [__proto__]. *)
Definition obj_wf (o : Obj V) : Prop := own_props o !! "__proto__" = None.
End Obj.

(** ** The module *)

Section AccessMini.
(** The caller's world: everything a handler may read or write. *)
Context {W : Type}.

(** [ActionHandler]: one argument; it returns or throws, and may touch the
    world. *)
Definition ActionHandler : Type := value → W → completion value * W.

Record PermissionDefinition : Type := mkDef {
  resource : string;
  handlers : gmap string ActionHandler
}.

Definition createPermissionDefinition
    (resource : string) (handlers : gmap string ActionHandler)
  : PermissionDefinition :=
  {| resource := resource; handlers := handlers |}.

(** The private [Map] of one [createPermissions] call, and the world. *)
Record State : Type := mkState {
  defs : gmap string PermissionDefinition;
  world : W
}.

Definition M (X : Type) : Type := State → completion X * State.

Definition ret {X} (x : X) : M X := λ st, (Return x, st).

Definition throw {X} (e : exn) : M X := λ st, (Throw e, st).

Definition bind {X Y} (m : M X) (f : X → M Y) : M Y :=
  λ st,
    match m st with
    | (Return x, st') => f x st'
    | (Throw e, st') => (Throw e, st')
    | (Native k arg, st') => (Native k arg, st')
    end.

(** [new Map()] *)
Definition Map_new : M unit := λ st, (Return (), mkState ∅ (world st)).

(** [defs.set(k, d)] *)
Definition Map_set (k : string) (d : PermissionDefinition) : M unit :=
  λ st, (Return (), mkState (<[k := d]> (defs st)) (world st)).

(** [defs.get(k)] *)
Definition Map_get (k : string) : M (option PermissionDefinition) :=
  λ st, (Return (defs st !! k), st).

(** Calling a handler: it sees and changes the world only. *)
Definition invoke (h : ActionHandler) (arg : value) : M value :=
  λ st, let r := h arg (world st) in (r.1, mkState (defs st) r.2).

(** [def.handlers[action](arg)].  The text of a [TypeError] is the
    engine's; no statement depends on it. *)
Definition call_member (m : member ActionHandler) (arg : value) : M value :=
  match m with
  | Own h => invoke h arg
  | Inherited k => λ st, (Native k arg, st)
  | ViaToString h => invoke h VUndefined
  | NotCallable => throw (TypeError "def.handlers[action] is not a function")
  | Absent => throw (TypeError "def.handlers[action] is not a function")
  end.

(** [for (const x of xs) body(x)] *)
Fixpoint for_of {A} (xs : list A) (body : A → M unit) : M unit :=
  match xs with
  | [] => ret ()
  | x :: rest => bind (body x) (λ _, for_of rest body)
  end.

(** *** [createPermissions] *)

Definition createPermissions (initialDefs : option (list PermissionDefinition))
  : M unit :=
  bind Map_new (λ _,
    match initialDefs with
    | Some ds => for_of ds (λ def, Map_set (resource def) def)
    | None => ret ()
    end).

(** *** [get] *)

(** A synthesized method [(entity?, attributes?) => ...]. *)
Definition ActionMethod : Type := option value → option value → M value.

Definition ActionInvoker : Type := Obj ActionMethod.

Definition ResourceAccessor : Type := value → ActionInvoker.

(** The object [{ can }] that [get] returns. *)
Record GetResult : Type := mkGet { get_can : ResourceAccessor }.

(** The closure [can] that [get] builds over the resolved definition. *)
Definition accessor (def : PermissionDefinition) : ResourceAccessor :=
  λ actor,
    foldl
      (λ (invoker : ActionInvoker) action,
         obj_set invoker action
           (λ entity attributes,
              call_member (get_property (handlers def) action)
                (Args actor (param entity) (param attributes))))
      obj_empty
      (Object_keys (handlers def)).

Definition unknown_resource (resource : string) : exn :=
  Error ("No permission definition for resource: " +:+ resource).

Definition get (resource : string) : M GetResult :=
  bind (Map_get resource) (λ def,
    match def with
    | None => throw (unknown_resource resource)
    | Some def => ret (mkGet (accessor def))
    end).

(** *** [can] *)

(** A synthesized accessor [() => ...]. *)
Definition ActionObject : Type := Obj (M value).

(** [can] returns either what the handler returned or an action object. *)
Inductive CanResult : Type :=
| Verdict (v : value)
| Actions (o : ActionObject).

Definition as_verdict (m : M value) : M CanResult :=
  bind m (λ v, ret (Verdict v)).

(** The completion of [return def.handlers[action](ctx)], given the one of
    the call. *)
Definition verdict_completion (c : completion value) : completion CanResult :=
  match c with
  | Return v => Return (Verdict v)
  | Throw e => Throw e
  | Native k arg => Native k arg
  end.

Definition unknown_action (action resource : string) : exn :=
  Error ("No handler for action '" +:+ action +:+
         "' on resource '" +:+ resource +:+ "'").

(** The branch [can(resource, action, ctx)]. *)
Definition can_single (def : PermissionDefinition)
    (resource action : string) (ctx : value) : M CanResult :=
  if has_property (handlers def) action
  then as_verdict (call_member (get_property (handlers def) action) ctx)
  else throw (unknown_action action resource).

(** The object [result] that the branch [can(resource, ctx)] fills. *)
Definition action_object (def : PermissionDefinition) (actionOrCtx : value)
  : ActionObject :=
  foldl
    (λ (result : ActionObject) action,
       obj_set result action
         (call_member (get_property (handlers def) action) actionOrCtx))
    obj_empty
    (Object_keys (handlers def)).

(** The branch [can(resource, ctx)]. *)
Definition can_batch (def : PermissionDefinition) (actionOrCtx : value)
  : M CanResult :=
  ret (Actions (action_object def actionOrCtx)).

(** The body of [can] once [def] is resolved:
    [typeof actionOrCtx === "string" && ctx !== undefined]. *)
Definition can_def (def : PermissionDefinition)
    (resource : string) (actionOrCtx : value) (ctx : option value)
  : M CanResult :=
  match actionOrCtx with
  | VStr action =>
      if is_undefined (param ctx)
      then can_batch def actionOrCtx
      else can_single def resource action (param ctx)
  | _ => can_batch def actionOrCtx
  end.

Definition can (resource : string) (actionOrCtx : value) (ctx : option value)
  : M CanResult :=
  bind (Map_get resource) (λ def,
    match def with
    | None => throw (unknown_resource resource)
    | Some def => can_def def resource actionOrCtx ctx
    end).

(** *** Callers *)

(** What a caller can do with the two operations: a call of [get] followed by
    [.can(actor)] and any number of calls of methods of the invoker, or a call
    of [can] followed by any number of calls of accessors of the action object
    (when one is returned).  Exceptions are the caller's to catch; the state
    they leave behind is what matters here. *)
Inductive use : Type :=
| UseGet (resource : string) (actor : value)
         (calls : list (string * option value * option value))
| UseCan (resource : string) (actionOrCtx : value) (ctx : option value)
         (calls : list string).

Definition call_method (invoker : ActionInvoker)
    (st : State) (c : string * option value * option value) : State :=
  match obj_get invoker c.1.1 with
  | Some m => (m c.1.2 c.2 st).2
  | None => st
  end.

Definition call_accessor (o : ActionObject) (st : State) (action : string)
  : State :=
  match obj_get o action with
  | Some f => (f st).2
  | None => st
  end.

Definition run_use (st : State) (u : use) : State :=
  match u with
  | UseGet resource actor calls =>
      match get resource st with
      | (Return g, st') => foldl (call_method (get_can g actor)) st' calls
      | (_, st') => st'
      end
  | UseCan resource actionOrCtx ctx calls =>
      match can resource actionOrCtx ctx st with
      | (Return (Actions o), st') => foldl (call_accessor o) st' calls
      | (_, st') => st'
      end
  end.

Definition run_uses (us : list use) (st : State) : State := foldl run_use st us.

(** The content of the [Map] after the loop of [createPermissions], as a
    fold of insertions. *)
Definition registry_of (ds : list PermissionDefinition)
  : gmap string PermissionDefinition :=
  foldl (λ m d, <[resource d := d]> m) ∅ ds.
End AccessMini.

Arguments ActionHandler : clear implicits.
Arguments PermissionDefinition : clear implicits.
Arguments State : clear implicits.
Arguments M : clear implicits.

(** ** A concrete instance

    The world is a counter of handler calls: every handler below adds one to
    it, as a handler that logs its invocations would. *)

(** [args?.actor?.role === r] *)
Definition role_is (r : string) (args : value) : bool :=
  match field "role" (field "actor" args) with
  | VStr s => String.eqb s r
  | _ => false
  end.

(** [create: ({ actor }) => actor.role === "admin"]: destructuring throws on
    [undefined] and [null], and so does the read of [role] when there is no
    actor. *)
Definition post_create : ActionHandler nat :=
  λ args calls,
    (match args with
     | VUndefined | VNull =>
         Throw (TypeError "Cannot destructure property 'actor'")
     | _ =>
         match field "actor" args with
         | VUndefined | VNull =>
             Throw (TypeError "Cannot read properties of undefined")
         | _ => Return (VBool (role_is "admin" args))
         end
     end,
     S calls).

(** [publish: async (args) => args?.actor?.role === "editor"] *)
Definition post_publish : ActionHandler nat :=
  λ args calls, (Return (VPromise (VBool (role_is "editor" args))), S calls).

(** [returnsZero: () => 0] *)
Definition returns_zero : ActionHandler nat :=
  λ _ calls, (Return (VNum 0), S calls).

(** [create: () => false], for a second definition of ["post"] *)
Definition deny_all : ActionHandler nat :=
  λ _ calls, (Return (VBool false), S calls).

Definition postDef : PermissionDefinition nat :=
  createPermissionDefinition "post"
    (<["create" := post_create]> (<["publish" := post_publish]>
       (<["returnsZero" := returns_zero]> ∅))).

Definition lockedPostDef : PermissionDefinition nat :=
  createPermissionDefinition "post" (<["create" := deny_all]> ∅).

Definition userDef : PermissionDefinition nat :=
  createPermissionDefinition "user" (<["view" := post_create]> ∅).

(** [probe: (args) => "entity" in args], a handler that looks at the shape
    of its argument rather than at the values in it; [in] throws on what is
    not an object *)
Definition sees_entity_key : ActionHandler nat :=
  λ args calls,
    (match args with
     | VObj props => Return (VBool (bool_decide ("entity" ∈ props.*1)))
     | VPromise _ => Return (VBool false)
     | _ => Throw (TypeError "Cannot use 'in' operator")
     end,
     S calls).

Definition probeDef : PermissionDefinition nat :=
  createPermissionDefinition "probe" (<["probe" := sees_entity_key]> ∅).

Definition admin : value := VObj [("role", VStr "admin")].

Definition guest : value := VObj [("role", VStr "guest")].

(** The state before [createPermissions] runs: no handler was called yet. *)
Definition fresh : State nat := mkState ∅ 0.

(** [createPermissions([postDef, userDef, probeDef])] *)
Definition permissions : State nat :=
  (createPermissions (Some [postDef; userDef; probeDef]) fresh).2.

(** [open: () => { throw new Error("denied") }] *)
Definition always_throws : ActionHandler nat :=
  λ _ calls, (Throw (Error "denied"), S calls).

Definition vaultDef : PermissionDefinition nat :=
  createPermissionDefinition "vault" (<["open" := always_throws]> ∅).

(** [createPermissionDefinition("nothing", {})] *)
Definition nothingDef : PermissionDefinition nat :=
  createPermissionDefinition "nothing" ∅.

(** [createPermissions([vaultDef, nothingDef])] *)
Definition guarded : State nat :=
  (createPermissions (Some [vaultDef; nothingDef]) fresh).2.

(** [createPermissionDefinition("odd", { ["__proto__"]: () => false, create })],
    a handlers object with an own key [__proto__] *)
Definition protoDef : PermissionDefinition nat :=
  createPermissionDefinition "odd"
    (<["__proto__" := deny_all]> (<["create" := post_create]> ∅)).

(** [createPermissionDefinition("text", { toString })], a handlers object
    that declares an action named [toString] *)
Definition textDef : PermissionDefinition nat :=
  createPermissionDefinition "text" (<["toString" := returns_zero]> ∅).

(** [createPermissions([protoDef, textDef])] *)
Definition oddities : State nat :=
  (createPermissions (Some [protoDef; textDef]) fresh).2.

(** * Properties *)

(** ** Objects built by a loop of assignments *)

Section ObjFacts.
Context {V : Type}.
Implicit Types (o : Obj V) (k : string) (ks : list string).

Lemma obj_empty_wf : obj_wf (@obj_empty V).
Proof. apply lookup_empty. Qed.

Lemma obj_set_wf o k v : obj_wf o → obj_wf (obj_set o k v).
Proof.
  unfold obj_wf, obj_set. intros Hwf.
  destruct (decide (k = "__proto__")) as [->|Hk]; simpl; [done|].
  by rewrite lookup_insert_ne.
Qed.

Lemma obj_get_set o k k' v :
  obj_wf o →
  obj_get (obj_set o k v) k' = if decide (k = k') then Some v else obj_get o k'.
Proof.
  unfold obj_wf, obj_get, obj_set. intros Hwf.
  destruct (decide (k = "__proto__")) as [->|Hk]; simpl.
  - destruct (decide ("__proto__" = k')) as [<-|Hk'].
    + by rewrite Hwf, decide_True.
    + destruct (own_props o !! k'); [done|].
      by rewrite !decide_False.
  - destruct (decide (k = k')) as [<-|Hk'].
    + by rewrite lookup_insert_eq.
    + by rewrite lookup_insert_ne.
Qed.

Lemma obj_keys_set o k v :
  obj_keys (obj_set o k v) =
  if decide (k = "__proto__") then obj_keys o else {[k]} ∪ obj_keys o.
Proof.
  unfold obj_keys, obj_set.
  destruct (decide (k = "__proto__")); simpl; [done|].
  apply dom_insert_L.
Qed.

(** The loop [for (const k of ks) o[k] = f(k)] starting from [o]. *)
Lemma fill_wf (f : string → V) ks o :
  obj_wf o → obj_wf (foldl (λ o k, obj_set o k (f k)) o ks).
Proof.
  revert o. induction ks as [|k ks IH]; intros o Hwf; simpl; [done|].
  by apply IH, obj_set_wf.
Qed.

Lemma fill_get (f : string → V) ks o k :
  obj_wf o →
  obj_get (foldl (λ o k, obj_set o k (f k)) o ks) k =
  if decide (k ∈ ks) then Some (f k) else obj_get o k.
Proof.
  revert o. induction ks as [|k' ks IH]; intros o Hwf.
  - simpl foldl. case_decide as Hin; [|done]. by apply elem_of_nil in Hin.
  - simpl foldl. rewrite IH by by apply obj_set_wf.
    rewrite obj_get_set by done.
    destruct (decide (k ∈ ks)) as [Hin|Hnin].
    + rewrite decide_True; [done|]. by apply elem_of_cons; right.
    + destruct (decide (k' = k)) as [->|Hne].
      * rewrite decide_True; [done|]. by apply elem_of_cons; left.
      * rewrite decide_False; [done|].
        rewrite elem_of_cons. intros [->|?]; done.
Qed.

Lemma fill_keys (f : string → V) ks o :
  obj_keys (foldl (λ o k, obj_set o k (f k)) o ks) =
  (list_to_set ks ∖ {["__proto__"]}) ∪ obj_keys o.
Proof.
  revert o. induction ks as [|k ks IH]; intros o; simpl.
  - set_solver.
  - rewrite IH, obj_keys_set.
    destruct (decide (k = "__proto__")) as [->|Hk]; set_solver.
Qed.

Lemma obj_keys_empty : obj_keys (@obj_empty V) = ∅.
Proof. apply dom_empty_L. Qed.

Lemma obj_get_empty k : obj_get (@obj_empty V) k = None.
Proof.
  unfold obj_get, obj_empty; simpl. rewrite lookup_empty.
  by destruct (decide (k = "__proto__")).
Qed.

(** [Object.keys] lists exactly the own properties. *)
Lemma elem_of_Object_keys (m : gmap string V) k :
  k ∈ Object_keys m ↔ is_Some (m !! k).
Proof.
  unfold Object_keys. rewrite list_elem_of_fmap. split.
  - intros [[k' v] [-> Hin]]. apply elem_of_map_to_list in Hin. by exists v.
  - intros [v Hv]. exists (k, v). split; [done|]. by apply elem_of_map_to_list.
Qed.

Lemma Object_keys_dom (m : gmap string V) :
  list_to_set (Object_keys m) = dom m.
Proof.
  apply set_eq. intros k.
  by rewrite elem_of_list_to_set, elem_of_Object_keys, elem_of_dom.
Qed.

Lemma get_property_own (m : gmap string V) k v :
  m !! k = Some v → get_property m k = Own v.
Proof. unfold get_property. by intros ->. Qed.

Lemma has_property_own (m : gmap string V) k v :
  m !! k = Some v → has_property m k = true.
Proof.
  unfold has_property. intros ->.
  by rewrite bool_decide_true by eauto.
Qed.
End ObjFacts.

(** ** The two operations on a registered resource *)

Section Dispatch.
Context {W : Type}.
Implicit Types (st : State W) (def : PermissionDefinition W).
Implicit Types (h : ActionHandler W) (R A : string).
Implicit Types (a e t ctx : value).

Lemma get_registered st R def :
  defs st !! R = Some def → get R st = (Return (mkGet (accessor def)), st).
Proof. intros Hdef. unfold get, bind, Map_get. by rewrite Hdef. Qed.

Lemma get_unregistered st R :
  defs st !! R = None → get R st = (Throw (unknown_resource R), st).
Proof. intros Hdef. unfold get, bind, Map_get. by rewrite Hdef. Qed.

Lemma can_registered st R def actionOrCtx (c : option value) :
  defs st !! R = Some def → can R actionOrCtx c st = can_def def R actionOrCtx c st.
Proof. intros Hdef. unfold can, bind, Map_get. by rewrite Hdef. Qed.

Lemma can_unregistered st R actionOrCtx (c : option value) :
  defs st !! R = None →
  can R actionOrCtx c st = (Throw (unknown_resource R), st).
Proof. intros Hdef. unfold can, bind, Map_get. by rewrite Hdef. Qed.

(** The invoker has the method of every declared action, and it calls the
    handler of that action. *)
Lemma accessor_get def a A h :
  handlers def !! A = Some h →
  obj_get (accessor def a) A =
  Some (λ entity attributes, invoke h (Args a (param entity) (param attributes))).
Proof.
  intros Hh. unfold accessor.
  rewrite (fill_get
    (λ action entity attributes,
       call_member (get_property (handlers def) action)
         (Args a (param entity) (param attributes))))
    by apply obj_empty_wf.
  rewrite decide_True by (apply elem_of_Object_keys; eauto).
  by rewrite (get_property_own _ _ _ Hh).
Qed.

Lemma accessor_get_None def a A :
  handlers def !! A = None → obj_get (accessor def a) A = None.
Proof.
  intros Hh. unfold accessor.
  rewrite (fill_get
    (λ action entity attributes,
       call_member (get_property (handlers def) action)
         (Args a (param entity) (param attributes))))
    by apply obj_empty_wf.
  rewrite decide_False; [apply obj_get_empty|].
  rewrite elem_of_Object_keys, Hh. by intros [? ?].
Qed.

Lemma accessor_keys def a :
  obj_keys (accessor def a) = dom (handlers def) ∖ {["__proto__"]}.
Proof.
  unfold accessor.
  rewrite (fill_keys
    (λ action entity attributes,
       call_member (get_property (handlers def) action)
         (Args a (param entity) (param attributes)))).
  rewrite Object_keys_dom, obj_keys_empty. set_solver.
Qed.

(** The same three facts for the action object of the batch shape. *)
Lemma action_object_get def ctx A h :
  handlers def !! A = Some h →
  obj_get (action_object def ctx) A = Some (invoke h ctx).
Proof.
  intros Hh. unfold action_object.
  rewrite (fill_get
    (λ action, call_member (get_property (handlers def) action) ctx))
    by apply obj_empty_wf.
  rewrite decide_True by (apply elem_of_Object_keys; eauto).
  by rewrite (get_property_own _ _ _ Hh).
Qed.

Lemma action_object_get_None def ctx A :
  handlers def !! A = None → obj_get (action_object def ctx) A = None.
Proof.
  intros Hh. unfold action_object.
  rewrite (fill_get
    (λ action, call_member (get_property (handlers def) action) ctx))
    by apply obj_empty_wf.
  rewrite decide_False; [apply obj_get_empty|].
  rewrite elem_of_Object_keys, Hh. by intros [? ?].
Qed.

Lemma action_object_keys def ctx :
  obj_keys (action_object def ctx) = dom (handlers def) ∖ {["__proto__"]}.
Proof.
  unfold action_object.
  rewrite (fill_keys
    (λ action, call_member (get_property (handlers def) action) ctx)).
  rewrite Object_keys_dom, obj_keys_empty. set_solver.
Qed.

Lemma invoke_eq h arg st (c : completion value) (w' : W) :
  h arg (world st) = (c, w') → invoke h arg st = (c, mkState (defs st) w').
Proof. unfold invoke. by intros ->. Qed.

Lemma as_verdict_eq (m : M W value) st (c : completion value) st' :
  m st = (c, st') → as_verdict m st = (verdict_completion c, st').
Proof. unfold as_verdict, bind, ret. intros ->. by destruct c. Qed.

(** The single-action branch on a declared action runs its handler. *)
Lemma can_single_own def R A h ctx :
  handlers def !! A = Some h →
  can_single def R A ctx = as_verdict (invoke h ctx).
Proof.
  intros Hh. unfold can_single.
  by rewrite (has_property_own _ _ _ Hh), (get_property_own _ _ _ Hh).
Qed.

(** The disambiguation test, case by case. *)
Lemma can_def_single def R A (c : option value) :
  is_undefined (param c) = false →
  can_def def R (VStr A) c = can_single def R A (param c).
Proof. intros Hc. unfold can_def. by rewrite Hc. Qed.

Lemma can_def_batch def R actionOrCtx (c : option value) :
  (∀ s, actionOrCtx ≠ VStr s) ∨ is_undefined (param c) = true →
  can_def def R actionOrCtx c = can_batch def actionOrCtx.
Proof.
  intros [Hs|Hc]; unfold can_def.
  - destruct actionOrCtx; try done. by destruct (Hs s).
  - destruct actionOrCtx; try done. by rewrite Hc.
Qed.

Lemma is_undefined_false v : is_undefined v = false ↔ v ≠ VUndefined.
Proof. destruct v; simpl; split; congruence. Qed.

Lemma is_undefined_true v : is_undefined v = true ↔ v = VUndefined.
Proof. destruct v; simpl; split; congruence. Qed.

(** The single-action branch never produces an action object. *)
Lemma can_single_not_actions def R A ctx st (o : ActionObject) st' :
  can_single def R A ctx st ≠ (Return (Actions o), st').
Proof.
  unfold can_single, as_verdict, bind, ret, throw.
  destruct (has_property (handlers def) A); [|done].
  by destruct (call_member _ _ st) as [[?|?|??] ?].
Qed.
End Dispatch.

(** ** Dispatch *)

Section Paths.
Context {W : Type}.
Implicit Types (st : State W) (def : PermissionDefinition W).
Implicit Types (h : ActionHandler W) (R A : string).
Implicit Types (a e t ctx : value).



(** C3.  On a resource name [R] that the registry does not hold, [get(R)]
    and [can(R, ...)], whatever the other arguments and in both shapes,
    throw the error [No permission definition for resource: R], whose
    message ends with [R] itself. *)
Theorem unknown_resource_rejected st R :
  defs st !! R = None →
  unknown_resource R
    = Error ("No permission definition for resource: " +:+ R) ∧
  get R st = (Throw (unknown_resource R), st) ∧
  ∀ actionOrCtx (c : option value),
    can R actionOrCtx c st = (Throw (unknown_resource R), st).
Proof.
  intros Hdef. split; [done|]. split.
  - by apply get_unregistered.
  - intros. by apply can_unregistered.
Qed.


(** C7.  On a registered resource [R] whose handlers object has no own key
    [__proto__], and for every actor [a], [get(R).can(a)] is an invoker
    whose own keys are the declared action names; it has a method for
    every declared action and none for a name that is not declared.  The
    method of an action, called on [(entity?, attributes?)], runs the
    handler of that action on [{ actor: a, entity, attributes }], an omitted
    argument reaching the handler as [undefined], and ends as the handler
    ends. *)
Theorem invoker_methods st R def a :
  defs st !! R = Some def →
  handlers def !! "__proto__" = None →
  ∃ g, get R st = (Return g, st) ∧
    obj_keys (get_can g a) = dom (handlers def) ∧
    (∀ A, handlers def !! A = None → obj_get (get_can g a) A = None) ∧
    (∀ A h, handlers def !! A = Some h →
       ∃ m, obj_get (get_can g a) A = Some m ∧
         (∀ (e t : option value) st' c w',
            h (VObj [("actor", a);
                     ("entity", default VUndefined e);
                     ("attributes", default VUndefined t)]) (world st')
              = (c, w') →
            m e t st' = (c, mkState (defs st') w')) ∧
         (∀ st' c w',
            h (VObj [("actor", a); ("entity", VUndefined);
                     ("attributes", VUndefined)]) (world st') = (c, w') →
            m None None st' = (c, mkState (defs st') w'))).
Proof.
  intros Hdef Hproto. exists (mkGet (accessor def)).
  split; [by apply get_registered|]. simpl.
  split.
  { rewrite accessor_keys. apply not_elem_of_dom in Hproto. set_solver. }
  split; [intros A HA; by apply accessor_get_None|].
  intros A h Hh.
  exists (λ entity attributes,
            invoke h (Args a (param entity) (param attributes))).
  split; [by apply accessor_get|].
  split.
  - intros e t st' c w' Hc. by apply invoke_eq.
  - intros st' c w' Hc. by apply invoke_eq.
Qed.

End Paths.

(** ** Failing lookups *)

Section Lookups.
Context {W : Type}.
Implicit Types (st : State W) (def : PermissionDefinition W).
Implicit Types (R A : string) (ctx : value).

(** A name that is neither declared nor inherited is rejected. *)
Lemma can_single_unknown def R A ctx st :
  has_property (handlers def) A = false →
  can_single def R A ctx st = (Throw (unknown_action A R), st).
Proof. intros Hp. unfold can_single. by rewrite Hp. Qed.

Lemma has_property_false def A :
  has_property (handlers def) A = false ↔
  handlers def !! A = None ∧ A ∉ object_prototype_keys.
Proof.
  unfold has_property. rewrite orb_false_iff, !bool_decide_eq_false.
  by rewrite <- eq_None_not_Some.
Qed.

(** A name that is not declared but is a function of [Object.prototype]
    passes the [in] test, and the built-in is called on the context.  Two
    inherited names behave otherwise: [__proto__], which is not a function,
    and [toLocaleString], which calls a declared [toString]. *)
Lemma can_single_inherited def R A ctx st :
  handlers def !! A = None →
  A ∈ object_prototype_keys →
  A ≠ "__proto__" →
  (A = "toLocaleString" → handlers def !! "toString" = None) →
  can_single def R A ctx st = (Native A ctx, st).
Proof.
  intros Hown Hin Hproto Hlocale. unfold can_single, has_property, get_property.
  rewrite Hown, (bool_decide_true _ Hin), orb_true_r.
  rewrite decide_False by done.
  destruct (decide (A = "toLocaleString")) as [HA|HA].
  - by rewrite (Hlocale HA).
  - done.
Qed.

Lemma can_single_proto def R ctx st :
  handlers def !! "__proto__" = None →
  ∃ msg, can_single def R "__proto__" ctx st = (Throw (TypeError msg), st).
Proof.
  intros Hown. unfold can_single, has_property, get_property.
  rewrite Hown. eexists. reflexivity.
Qed.

Lemma can_single_locale def R h ctx st :
  handlers def !! "toLocaleString" = None →
  handlers def !! "toString" = Some h →
  can_single def R "toLocaleString" ctx st = as_verdict (invoke h VUndefined) st.
Proof.
  intros Hown Hh. unfold can_single, has_property, get_property.
  by rewrite Hown, Hh.
Qed.

(** C8.  Both errors are thrown on the spot and before any handler runs.
    When the resource is not registered, [get] and [can] end in a thrown
    error; when the resource is registered and the [in] test on the action
    name fails, [can(R, A, ctx)] ends in a thrown error.  In each case the
    completion is a throw, never a returned (pending) value, and the state is
    the one the call started from: the world, which only handlers change, is
    untouched, whatever the registered handlers are, pending ones
    included. *)
Theorem lookup_errors_thrown_at_once st R :
  (defs st !! R = None →
     get R st = (Throw (unknown_resource R), st) ∧
     ∀ actionOrCtx (c : option value),
       can R actionOrCtx c st = (Throw (unknown_resource R), st) ∧
       world (can R actionOrCtx c st).2 = world st ∧
       ∀ v, (can R actionOrCtx c st).1 ≠ Return (Verdict (VPromise v))) ∧
  (∀ def A ctx,
     defs st !! R = Some def →
     ctx ≠ VUndefined →
     has_property (handlers def) A = false →
     can R (VStr A) (Some ctx) st = (Throw (unknown_action A R), st) ∧
     world (can R (VStr A) (Some ctx) st).2 = world st ∧
     ∀ v, (can R (VStr A) (Some ctx) st).1 ≠ Return (Verdict (VPromise v))).
Proof.
  split.
  - intros Hdef. split; [by apply get_unregistered|].
    intros actionOrCtx c. by rewrite (can_unregistered _ _ _ _ Hdef).
  - intros def A ctx Hdef Hctx Hp.
    rewrite (can_registered _ _ _ _ _ Hdef).
    rewrite can_def_single by by apply is_undefined_false.
    by rewrite (can_single_unknown _ _ _ _ _ Hp).
Qed.
End Lookups.

(** ** Construction *)

Section Construction.
Context {W : Type}.
Implicit Types (st : State W) (d def : PermissionDefinition W).
Implicit Types (ds : list (PermissionDefinition W)) (R : string).

Lemma for_of_set ds st :
  for_of ds (λ def, Map_set (resource def) def) st =
  (Return (),
   mkState (foldl (λ m d, <[resource d := d]> m) (defs st) ds) (world st)).
Proof.
  revert st. induction ds as [|d ds IH]; intros st; simpl.
  - unfold ret. by destruct st.
  - unfold bind, Map_set. by rewrite IH.
Qed.

Lemma createPermissions_Some ds st :
  createPermissions (Some ds) st
  = (Return (), mkState (registry_of ds) (world st)).
Proof. unfold createPermissions, bind, Map_new. by rewrite for_of_set. Qed.

Lemma createPermissions_None st :
  createPermissions None st = (Return (), mkState ∅ (world st)).
Proof. done. Qed.

(** Later insertions under other names leave an entry alone. *)
Lemma insertions_other ds (m : gmap string (PermissionDefinition W)) R :
  (∀ d, d ∈ ds → resource d ≠ R) →
  foldl (λ m d, <[resource d := d]> m) m ds !! R = m !! R.
Proof.
  revert m. induction ds as [|d ds IH]; intros m Hne; simpl; [done|].
  rewrite IH by (intros d' Hd'; apply Hne; by right).
  apply lookup_insert_ne, Hne. by left.
Qed.

Lemma registry_of_last ds1 d ds2 :
  (∀ d', d' ∈ ds2 → resource d' ≠ resource d) →
  registry_of (ds1 ++ d :: ds2) !! resource d = Some d.
Proof.
  intros Hne. unfold registry_of. rewrite foldl_app. simpl.
  rewrite insertions_other by done. apply lookup_insert_eq.
Qed.

(** Every entry is filed under the name its definition carries. *)
Lemma registry_of_resource ds R d :
  registry_of ds !! R = Some d → resource d = R.
Proof.
  unfold registry_of.
  induction ds as [|d' ds IH] using rev_ind; [simpl; by rewrite lookup_empty|].
  rewrite foldl_app. simpl. rewrite lookup_insert.
  case_decide; [congruence|done].
Qed.

(** C5.  When two definitions of the input sequence carry the same
    resource name and no definition after the second carries it,
    [createPermissions] keeps the second: the registry maps the name to it,
    and [get] and [can] on that name work on the second definition alone,
    whatever the first one declared. *)
Theorem later_definition_wins ds1 d1 ds2 d2 ds3 st0 :
  resource d1 = resource d2 →
  (∀ d, d ∈ ds3 → resource d ≠ resource d2) →
  let R := resource d2 in
  let st := (createPermissions (Some (ds1 ++ d1 :: ds2 ++ d2 :: ds3)%list) st0).2 in
  defs st !! R = Some d2 ∧
  get R st = (Return (mkGet (accessor d2)), st) ∧
  ∀ actionOrCtx (c : option value),
    can R actionOrCtx c st = can_def d2 R actionOrCtx c st.
Proof.
  intros _ Hlast R st.
  assert (Hreg : defs st !! R = Some d2).
  { unfold st. rewrite createPermissions_Some. simpl.
    replace (ds1 ++ d1 :: ds2 ++ d2 :: ds3)%list
      with ((ds1 ++ d1 :: ds2) ++ d2 :: ds3)%list by by rewrite <- app_assoc.
    by apply registry_of_last. }
  split; [done|]. split.
  - by apply get_registered.
  - intros. by apply can_registered.
Qed.
End Construction.

(** ** The registry after construction *)

Section ReadOnly.
Context {W : Type}.
Implicit Types (st : State W) (def : PermissionDefinition W).

Lemma invoke_defs (h : ActionHandler W) arg st :
  defs (invoke h arg st).2 = defs st.
Proof. done. Qed.

Lemma call_member_defs (m : member (ActionHandler W)) arg st :
  defs (call_member m arg st).2 = defs st.
Proof. by destruct m. Qed.

Lemma get_state R st : (get R st).2 = st.
Proof. unfold get, bind, Map_get. by destruct (defs st !! R). Qed.

Lemma can_single_defs def R A ctx st :
  defs (can_single def R A ctx st).2 = defs st.
Proof.
  unfold can_single, as_verdict, bind, ret, throw.
  destruct (has_property (handlers def) A); [|done].
  pose proof (call_member_defs (get_property (handlers def) A) ctx st) as H.
  by destruct (call_member _ _ st) as [[?|?|??] ?].
Qed.

Lemma can_defs R actionOrCtx (c : option value) st :
  defs (can R actionOrCtx c st).2 = defs st.
Proof.
  unfold can, bind, Map_get.
  destruct (defs st !! R) as [def|]; [|done].
  unfold can_def.
  destruct actionOrCtx; try done.
  destruct (is_undefined (param c)); [done|apply can_single_defs].
Qed.

(** Every method of an invoker and every accessor of an action object is a
    call of a member of the handlers object. *)
Lemma accessor_method def a A (m : ActionMethod) :
  obj_get (accessor def a) A = Some m →
  m = λ entity attributes,
        call_member (get_property (handlers def) A)
          (Args a (param entity) (param attributes)).
Proof.
  unfold accessor.
  rewrite (fill_get
    (λ action entity attributes,
       call_member (get_property (handlers def) action)
         (Args a (param entity) (param attributes))))
    by apply obj_empty_wf.
  case_decide; [congruence|]. by rewrite obj_get_empty.
Qed.

Lemma action_object_accessor def ctx A (f : M W value) :
  obj_get (action_object def ctx) A = Some f →
  f = call_member (get_property (handlers def) A) ctx.
Proof.
  unfold action_object.
  rewrite (fill_get
    (λ action, call_member (get_property (handlers def) action) ctx))
    by apply obj_empty_wf.
  case_decide; [congruence|]. by rewrite obj_get_empty.
Qed.

Lemma call_method_defs def a st c :
  defs (call_method (accessor def a) st c) = defs st.
Proof.
  unfold call_method.
  destruct (obj_get _ _) as [m|] eqn:Hm; [|done].
  apply accessor_method in Hm as ->. apply call_member_defs.
Qed.

Lemma call_accessor_defs def ctx st A :
  defs (call_accessor (action_object def ctx) st A) = defs st.
Proof.
  unfold call_accessor.
  destruct (obj_get _ _) as [f|] eqn:Hf; [|done].
  apply action_object_accessor in Hf as ->. apply call_member_defs.
Qed.

Lemma foldl_defs {A} (step : State W → A → State W) (xs : list A) st :
  (∀ st x, defs (step st x) = defs st) →
  defs (foldl step st xs) = defs st.
Proof.
  intros Hstep. revert st.
  induction xs as [|x xs IH]; intros st; simpl; [done|].
  by rewrite IH.
Qed.

Lemma run_use_defs st (u : use) : defs (run_use st u) = defs st.
Proof.
  destruct u as [R a calls|R actionOrCtx c calls]; simpl.
  - unfold get, bind, Map_get.
    destruct (defs st !! R) as [def|]; [|done]. simpl.
    apply foldl_defs. intros. apply call_method_defs.
  - pose proof (can_defs R actionOrCtx c st) as Hcan.
    unfold can, bind, Map_get in *.
    destruct (defs st !! R) as [def|]; [|done].
    unfold can_def in *.
    assert (Hb : defs (let '(r, st') := can_batch def actionOrCtx st in
                       match r with
                       | Return (Actions o) => foldl (call_accessor o) st' calls
                       | _ => st'
                       end) = defs st).
    { simpl. apply foldl_defs. intros. apply call_accessor_defs. }
    destruct actionOrCtx; try exact Hb.
    destruct (is_undefined (param c)); [exact Hb|].
    pose proof (can_single_not_actions def R s (param c) st) as Hna.
    destruct (can_single def R s (param c) st) as [[[v|o]|?|??] st'];
      try done.
    by destruct (Hna o st').
Qed.

(** C9.  Once [createPermissions] has returned, the registry is the fold of
    the insertions of the initial definitions (empty when none is given),
    and nothing a caller does with [get], with [can] in either shape, or by
    calling the methods and accessors they hand out, changes it: after any
    sequence of such uses the mapping is the one construction left.  The
    methods and accessors leave the mapping alone in whatever state they are
    called, so holding on to them and calling them later changes nothing
    either. *)
Theorem registry_read_only
    (initialDefs : option (list (PermissionDefinition W))) st0
    (us : list use) :
  let st := (createPermissions initialDefs st0).2 in
  defs st = registry_of (default [] initialDefs) ∧
  defs (run_uses us st) = defs st ∧
  (∀ R, defs (get R st).2 = defs st) ∧
  (∀ R actionOrCtx (c : option value),
     defs (can R actionOrCtx c st).2 = defs st) ∧
  (∀ def a A (m : ActionMethod) (e t : option value) st',
     obj_get (accessor def a) A = Some m → defs (m e t st').2 = defs st') ∧
  (∀ def ctx A (f : M W value) st',
     obj_get (action_object def ctx) A = Some f → defs (f st').2 = defs st').
Proof.
  intros st. split.
  { unfold st. destruct initialDefs as [ds|].
    - by rewrite createPermissions_Some.
    - done. }
  split.
  { unfold run_uses. apply foldl_defs. apply run_use_defs. }
  split; [intros R; by rewrite get_state|].
  split; [intros; apply can_defs|].
  split.
  - intros def a A m e t st' Hm.
    apply accessor_method in Hm as ->. apply call_member_defs.
  - intros def ctx A f st' Hf.
    apply action_object_accessor in Hf as ->. apply call_member_defs.
Qed.
End ReadOnly.

(** ** The instance at work *)

Lemma permissions_post : defs permissions !! "post" = Some postDef.
Proof. vm_compute. reflexivity. Qed.

(** C4.  The name [toString] is not declared by [postDef], yet
    [can("post", "toString", { actor: guest })] does not throw the
    unknown-action error: the [in] test finds [toString] on
    [Object.prototype], and the call goes to that built-in. *)
Theorem inherited_action_not_rejected :
  let ctx := VObj [("actor", guest)] in
  defs permissions !! "post" = Some postDef ∧
  handlers postDef !! "toString" = None ∧
  can "post" (VStr "toString") (Some ctx) permissions
    = (Native "toString" ctx, permissions) ∧
  can "post" (VStr "toString") (Some ctx) permissions
    ≠ (Throw (unknown_action "toString" "post"), permissions).
Proof.
  intros ctx.
  assert (Hown : handlers postDef !! "toString" = None)
    by (vm_compute; reflexivity).
  assert (Hcan : can "post" (VStr "toString") (Some ctx) permissions
                 = (Native "toString" ctx, permissions)).
  { rewrite (can_registered _ _ _ _ _ permissions_post).
    rewrite can_def_single by done.
    apply can_single_inherited; [done| |done|done].
    unfold object_prototype_keys. set_solver. }
  split; [apply permissions_post|]. split; [done|]. split; [done|].
  rewrite Hcan. discriminate.
Qed.





Lemma unknown_resource_rejected_witness :
  defs permissions !! "missing" = None ∧
  unknown_resource "missing"
    = Error ("No permission definition for resource: " +:+ "missing") ∧
  get "missing" permissions = (Throw (unknown_resource "missing"), permissions) ∧
  ∀ actionOrCtx (c : option value),
    can "missing" actionOrCtx c permissions
      = (Throw (unknown_resource "missing"), permissions).
Proof.
  split; [vm_compute; reflexivity|].
  apply (unknown_resource_rejected permissions "missing").
  vm_compute; reflexivity.
Defined.

Lemma later_definition_wins_witness :
  let st := (createPermissions
               (Some ([] ++ postDef :: [] ++ lockedPostDef :: [userDef])%list)
               fresh).2 in
  resource postDef = resource lockedPostDef ∧
  defs st !! "post" = Some lockedPostDef ∧
  get "post" st = (Return (mkGet (accessor lockedPostDef)), st) ∧
  ∀ actionOrCtx (c : option value),
    can "post" actionOrCtx c st = can_def lockedPostDef "post" actionOrCtx c st.
Proof.
  intros st. split; [reflexivity|].
  apply (later_definition_wins [] postDef [] lockedPostDef [userDef] fresh).
  - reflexivity.
  - intros d Hd. apply list_elem_of_singleton in Hd. subst d.
    vm_compute. discriminate.
Defined.


Lemma invoker_methods_witness :
  defs permissions !! "post" = Some postDef ∧
  handlers postDef !! "__proto__" = None ∧
  ∃ g, get "post" permissions = (Return g, permissions) ∧
    obj_keys (get_can g admin) = dom (handlers postDef) ∧
    (∀ A, handlers postDef !! A = None → obj_get (get_can g admin) A = None) ∧
    (∀ A h, handlers postDef !! A = Some h →
       ∃ m, obj_get (get_can g admin) A = Some m ∧
         (∀ (e t : option value) st' c w',
            h (VObj [("actor", admin);
                     ("entity", default VUndefined e);
                     ("attributes", default VUndefined t)]) (world st')
              = (c, w') →
            m e t st' = (c, mkState (defs st') w')) ∧
         (∀ st' c w',
            h (VObj [("actor", admin); ("entity", VUndefined);
                     ("attributes", VUndefined)]) (world st') = (c, w') →
            m None None st' = (c, mkState (defs st') w'))).
Proof.
  split; [vm_compute; reflexivity|]. split; [vm_compute; reflexivity|].
  apply (invoker_methods permissions "post" postDef admin);
    vm_compute; reflexivity.
Defined.

(** C7, as worded for every registered resource: the handlers object of
    [protoDef] declares the actions [__proto__] and [create], and the
    invoker of [get("odd").can(admin)] has the single own key [create]; the
    assignment [invoker["__proto__"] = ...] has replaced its prototype and
    made no method of it. *)
Lemma invoker_misses_proto_key :
  defs oddities !! "odd" = Some protoDef ∧
  dom (handlers protoDef) = {["__proto__"; "create"]} ∧
  ∃ g, get "odd" oddities = (Return g, oddities) ∧
       obj_keys (get_can g admin) = {["create"]} ∧
       obj_keys (get_can g admin) ≠ dom (handlers protoDef).
Proof.
  assert (Hdef : defs oddities !! "odd" = Some protoDef)
    by (vm_compute; reflexivity).
  assert (Hdom : dom (handlers protoDef) = {["__proto__"; "create"]}).
  { unfold protoDef, createPermissionDefinition. simpl.
    rewrite !dom_insert_L, dom_empty_L. set_solver. }
  assert (Hkeys : obj_keys (accessor protoDef admin) = {["create"]}).
  { rewrite accessor_keys, Hdom. set_solver. }
  assert (Hne : obj_keys (accessor protoDef admin) ≠ dom (handlers protoDef)).
  { rewrite Hkeys, Hdom. intros Heq.
    assert (Hin : "__proto__" ∈ ({["create"]} : gset string))
      by (rewrite Heq; set_solver).
    set_solver. }
  split; [exact Hdef|]. split; [exact Hdom|].
  exists (mkGet (accessor protoDef)).
  split; [by apply get_registered|].
  split; [exact Hkeys|exact Hne].
Qed.

Lemma lookup_errors_thrown_at_once_witness :
  defs permissions !! "missing" = None ∧
  defs permissions !! "post" = Some postDef ∧
  has_property (handlers postDef) "approve" = false ∧
  get "missing" permissions = (Throw (unknown_resource "missing"), permissions) ∧
  can "missing" (VStr "publish") (Some (VObj [("actor", admin)])) permissions
    = (Throw (unknown_resource "missing"), permissions) ∧
  can "post" (VStr "approve") (Some (VObj [("actor", admin)])) permissions
    = (Throw (unknown_action "approve" "post"), permissions).
Proof.
  assert (Hmissing : defs permissions !! "missing" = None)
    by (vm_compute; reflexivity).
  assert (Hpost : defs permissions !! "post" = Some postDef)
    by (vm_compute; reflexivity).
  assert (Happrove : has_property (handlers postDef) "approve" = false)
    by (vm_compute; reflexivity).
  destruct (lookup_errors_thrown_at_once permissions "missing")
    as [Hresource _].
  destruct (Hresource Hmissing) as [Hget Hcan].
  destruct (lookup_errors_thrown_at_once permissions "post") as [_ Haction].
  destruct (Haction postDef "approve" (VObj [("actor", admin)]) Hpost
              ltac:(discriminate) Happrove) as [Hthrow _].
  split; [exact Hmissing|]. split; [exact Hpost|]. split; [exact Happrove|].
  split; [exact Hget|]. split; [|exact Hthrow].
  apply (Hcan (VStr "publish") (Some (VObj [("actor", admin)]))).
Defined.


(** * Further properties of the module *)

(** ** What [createPermissions] builds *)

Section Registry.
Context {W : Type}.
Implicit Types (st : State W) (d def : PermissionDefinition W).
Implicit Types (ds : list (PermissionDefinition W)) (R : string).

Lemma registry_of_snoc ds d :
  registry_of (ds ++ [d]) = <[resource d := d]> (registry_of ds).
Proof. unfold registry_of. by rewrite foldl_app. Qed.

Lemma registry_of_lookup ds R :
  registry_of ds !! R = last (filter (λ d, resource d = R) ds).
Proof.
  induction ds as [|d ds IH] using rev_ind.
  - unfold registry_of. simpl. by rewrite lookup_empty.
  - rewrite registry_of_snoc, lookup_insert, filter_app.
    rewrite filter_cons, filter_nil.
    case_decide as Hd.
    + by rewrite last_snoc.
    + by rewrite app_nil_r.
Qed.

(** The registry as stdpp's [list_to_map], which keeps the first binding of
    a key: the loop keeps the last, hence the reversal. *)
Lemma registry_of_list_to_map ds :
  registry_of ds = list_to_map (reverse ((λ d, (resource d, d)) <$> ds)).
Proof.
  induction ds as [|d ds IH] using rev_ind; [done|].
  rewrite registry_of_snoc, fmap_app, reverse_app. simpl.
  by rewrite IH.
Qed.

(** X1.  The registry maps a name to the last definition of the input sequence
    that carries it, however many definitions carry it, and to nothing when
    none does. *)
Theorem registry_keeps_last ds R st0 :
  defs (createPermissions (Some ds) st0).2 !! R
  = last (filter (λ d, resource d = R) ds).
Proof. rewrite createPermissions_Some. simpl. apply registry_of_lookup. Qed.

(** X2.  [get(R)] returns exactly when some definition of the input sequence
    carries the name [R], and throws the unknown-resource error exactly when
    none does; so does the lookup of [can]. *)
Theorem registered_iff_listed ds R st0 :
  let st := (createPermissions (Some ds) st0).2 in
  ((∃ g, get R st = (Return g, st)) ↔ ∃ d, d ∈ ds ∧ resource d = R) ∧
  (get R st = (Throw (unknown_resource R), st) ↔
     ∀ d, d ∈ ds → resource d ≠ R) ∧
  ((∀ actionOrCtx (c : option value),
      can R actionOrCtx c st = (Throw (unknown_resource R), st)) ↔
     ∀ d, d ∈ ds → resource d ≠ R).
Proof.
  intros st.
  assert (Hlook : defs st !! R = last (filter (λ d, resource d = R) ds))
    by apply registry_keeps_last.
  assert (Hsome : is_Some (defs st !! R) ↔ ∃ d, d ∈ ds ∧ resource d = R).
  { rewrite Hlook, last_is_Some. split.
    - intros Hne. destruct (filter _ ds) as [|d l] eqn:Hf; [done|].
      exists d. assert (Hd : d ∈ filter (λ d, resource d = R) ds)
        by (rewrite Hf; by left).
      apply list_elem_of_filter in Hd as [? ?]. done.
    - intros (d & Hd & HR) Hnil.
      assert (Hin : d ∈ filter (λ d, resource d = R) ds)
        by by apply list_elem_of_filter.
      rewrite Hnil in Hin. by apply elem_of_nil in Hin. }
  assert (Hnone : defs st !! R = None ↔ ∀ d, d ∈ ds → resource d ≠ R).
  { rewrite eq_None_not_Some, Hsome. naive_solver. }
  split; [|split].
  - rewrite <- Hsome. split.
    + intros [g Hg]. destruct (defs st !! R) as [def|] eqn:Hdef; [by eexists|].
      by rewrite (get_unregistered _ _ Hdef) in Hg.
    + intros [def Hdef]. eexists. by apply get_registered.
  - rewrite <- Hnone. split; [|apply get_unregistered].
    intros Hg. destruct (defs st !! R) as [def|] eqn:Hdef; [|done].
    by rewrite (get_registered _ _ _ Hdef) in Hg.
  - rewrite <- Hnone. split; [|intros; by apply can_unregistered].
    intros Hc. destruct (defs st !! R) as [def|] eqn:Hdef; [|done].
    specialize (Hc VNull None).
    rewrite (can_registered _ _ _ _ _ Hdef) in Hc. done.
Qed.

(** X3.  Every entry of the registry is one of the input definitions, filed
    under the name that definition carries. *)
Theorem registry_entries_are_inputs ds R d st0 :
  defs (createPermissions (Some ds) st0).2 !! R = Some d →
  d ∈ ds ∧ resource d = R.
Proof.
  rewrite registry_keeps_last. intros Hlast.
  apply last_Some_elem_of, list_elem_of_filter in Hlast. naive_solver.
Qed.

(** X4.  Without initial definitions, be the argument omitted or the empty
    array, the registry is empty: every [get] and every [can] throws the
    unknown-resource error. *)
Theorem empty_registry_rejects_all
    (initialDefs : option (list (PermissionDefinition W))) st0 :
  default [] initialDefs = [] →
  let st := (createPermissions initialDefs st0).2 in
  defs st = ∅ ∧
  (∀ R, get R st = (Throw (unknown_resource R), st)) ∧
  (∀ R actionOrCtx (c : option value),
     can R actionOrCtx c st = (Throw (unknown_resource R), st)).
Proof.
  intros Hempty st.
  assert (Hdefs : defs st = ∅).
  { unfold st. destruct initialDefs as [ds|]; [|done].
    simpl in Hempty. subst ds. by rewrite createPermissions_Some. }
  split; [done|]. split.
  - intros R. apply get_unregistered. by rewrite Hdefs, lookup_empty.
  - intros R a c. apply can_unregistered. by rewrite Hdefs, lookup_empty.
Qed.

(** X5.  [createPermissions] always returns normally and calls no handler (the
    world is left as it was); the registry it builds starts from a new map,
    so it depends on the initial definitions alone and not on what an
    earlier instance held. *)
Theorem construction_is_self_contained
    (initialDefs : option (list (PermissionDefinition W))) st1 st2 :
  world st1 = world st2 →
  (createPermissions initialDefs st1).1 = Return () ∧
  world (createPermissions initialDefs st1).2 = world st1 ∧
  createPermissions initialDefs st1 = createPermissions initialDefs st2.
Proof.
  intros Hw. destruct initialDefs as [ds|].
  - rewrite !createPermissions_Some, Hw. done.
  - rewrite !createPermissions_None, Hw. done.
Qed.

(** X6.  When the definitions carry pairwise distinct names, the order in which
    they are listed does not matter. *)
Theorem registration_order_irrelevant ds1 ds2 st0 :
  NoDup (resource <$> ds1) →
  ds1 ≡ₚ ds2 →
  createPermissions (Some ds1) st0 = createPermissions (Some ds2) st0.
Proof.
  intros Hnodup Hperm. rewrite !createPermissions_Some.
  f_equal. f_equal. rewrite !registry_of_list_to_map.
  apply list_to_map_proper.
  - rewrite fmap_reverse, <- list_fmap_compose.
    by rewrite reverse_Permutation.
  - by rewrite !reverse_Permutation, Hperm.
Qed.

(** X7.  Defining one resource, registering it and dispatching on it: the
    handler given to [createPermissionDefinition] is the one that runs, on
    the context given to [can], and the call ends as the handler ends; no
    other resource name is known. *)
Theorem define_register_dispatch
    R (H : gmap string (ActionHandler W)) A h ctx st0 :
  H !! A = Some h →
  ctx ≠ VUndefined →
  let st := (createPermissions
               (Some [createPermissionDefinition R H]) st0).2 in
  defs st = {[R := createPermissionDefinition R H]} ∧
  (∀ c w', h ctx (world st) = (c, w') →
     can R (VStr A) (Some ctx) st
       = (verdict_completion c, mkState (defs st) w')) ∧
  (∀ R', R' ≠ R → get R' st = (Throw (unknown_resource R'), st)) ∧
  (∀ R' actionOrCtx (c : option value), R' ≠ R →
     can R' actionOrCtx c st = (Throw (unknown_resource R'), st)).
Proof.
  intros HA Hctx st.
  assert (Hdefs : defs st = {[R := createPermissionDefinition R H]}).
  { unfold st. rewrite createPermissions_Some. done. }
  split; [done|]. split; [|split].
  - intros c w' Hc.
    assert (Hdef : defs st !! R = Some (createPermissionDefinition R H))
      by (rewrite Hdefs; apply lookup_singleton_eq).
    rewrite (can_registered _ _ _ _ _ Hdef).
    rewrite can_def_single by by apply is_undefined_false.
    rewrite (can_single_own (createPermissionDefinition R H) R A h _ HA).
    apply as_verdict_eq. by apply invoke_eq.
  - intros R' Hne. apply get_unregistered.
    rewrite Hdefs. by apply lookup_singleton_ne.
  - intros R' a c Hne. apply can_unregistered.
    rewrite Hdefs. by apply lookup_singleton_ne.
Qed.
End Registry.

(** ** What a dispatch depends on *)

Section Frame.
Context {W : Type}.
Implicit Types (st : State W) (d def : PermissionDefinition W).
Implicit Types (ds : list (PermissionDefinition W)) (R A : string).
Implicit Types (h : ActionHandler W) (ctx : value).

(** A call of a member of the handlers object looks at the world only. *)
Lemma call_member_world (m : member (ActionHandler W)) arg st1 st2 :
  world st1 = world st2 →
  (call_member m arg st1).1 = (call_member m arg st2).1 ∧
  world (call_member m arg st1).2 = world (call_member m arg st2).2.
Proof. intros Hw. destruct m; simpl; by rewrite ?Hw. Qed.

Lemma can_def_world def R actionOrCtx (c : option value) st1 st2 :
  world st1 = world st2 →
  (can_def def R actionOrCtx c st1).1 = (can_def def R actionOrCtx c st2).1 ∧
  world (can_def def R actionOrCtx c st1).2
    = world (can_def def R actionOrCtx c st2).2.
Proof.
  intros Hw. unfold can_def.
  assert (Hb : (can_batch def actionOrCtx st1).1
               = (can_batch def actionOrCtx st2).1 ∧
               world (can_batch def actionOrCtx st1).2
               = world (can_batch def actionOrCtx st2).2) by done.
  destruct actionOrCtx; try exact Hb.
  destruct (is_undefined (param c)); [exact Hb|].
  unfold can_single, as_verdict, bind, ret, throw.
  destruct (has_property (handlers def) s); [|done].
  destruct (call_member_world (get_property (handlers def) s) (param c)
              st1 st2 Hw) as [H1 H2].
  destruct (call_member _ _ st1) as [[?|?|??] ?],
           (call_member _ _ st2) as [[?|?|??] ?];
    simpl in *; by simplify_eq.
Qed.

(** What [get] and [can] do on a name depends on the entry of that name
    and on the world, and on nothing else in the registry. *)
Lemma dispatch_depends_on_entry R st1 st2 :
  defs st1 !! R = defs st2 !! R →
  world st1 = world st2 →
  (get R st1).1 = (get R st2).1 ∧
  ∀ actionOrCtx (c : option value),
    (can R actionOrCtx c st1).1 = (can R actionOrCtx c st2).1 ∧
    world (can R actionOrCtx c st1).2 = world (can R actionOrCtx c st2).2.
Proof.
  intros Hentry Hw. split.
  - unfold get, bind, Map_get. rewrite Hentry.
    by destruct (defs st2 !! R).
  - intros actionOrCtx c. unfold can, bind, Map_get. rewrite Hentry.
    destruct (defs st2 !! R) as [def|]; [|done].
    by apply can_def_world.
Qed.

Lemma filter_other_names ds R :
  (∀ d, d ∈ ds → resource d ≠ R) → filter (λ d, resource d = R) ds = [].
Proof.
  induction ds as [|d ds IH]; intros Hne; [done|].
  rewrite filter_cons. rewrite decide_False by (apply Hne; by left).
  apply IH. intros d' Hd'. apply Hne. by right.
Qed.

(** X8.  Definitions of other resources, wherever they stand in the input
    sequence, do not change what [get] and [can] do on [R]: same completion,
    same effect on the world. *)
Theorem other_resources_do_not_interfere ds1 others ds2 R st0 :
  (∀ d, d ∈ others → resource d ≠ R) →
  let st := (createPermissions (Some (ds1 ++ others ++ ds2)%list) st0).2 in
  let st' := (createPermissions (Some (ds1 ++ ds2)%list) st0).2 in
  defs st !! R = defs st' !! R ∧
  (get R st).1 = (get R st').1 ∧
  ∀ actionOrCtx (c : option value),
    (can R actionOrCtx c st).1 = (can R actionOrCtx c st').1 ∧
    world (can R actionOrCtx c st).2 = world (can R actionOrCtx c st').2.
Proof.
  intros Hothers st st'.
  assert (Hentry : defs st !! R = defs st' !! R).
  { unfold st, st'. rewrite !registry_keeps_last, !filter_app.
    by rewrite (filter_other_names others R Hothers). }
  split; [done|].
  apply dispatch_depends_on_entry; [done|].
  unfold st, st'. by rewrite !createPermissions_Some.
Qed.

(** X9.  When a later definition replaces an earlier one of the same name, the
    handlers are not merged: an action that only the earlier definition
    declares is unknown afterwards, in the single-action shape and on the
    invoker alike. *)
Theorem replaced_definition_is_hidden ds1 d1 ds2 d2 ds3 st0 A ctx :
  resource d1 = resource d2 →
  (∀ d, d ∈ ds3 → resource d ≠ resource d2) →
  handlers d2 !! A = None →
  A ∉ object_prototype_keys →
  ctx ≠ VUndefined →
  let R := resource d2 in
  let st := (createPermissions (Some (ds1 ++ d1 :: ds2 ++ d2 :: ds3)%list) st0).2 in
  can R (VStr A) (Some ctx) st = (Throw (unknown_action A R), st) ∧
  ∀ actor, ∃ g, get R st = (Return g, st) ∧ obj_get (get_can g actor) A = None.
Proof.
  intros _ Hlast HA Hproto Hctx R st.
  assert (Hreg : defs st !! R = Some d2).
  { unfold st. rewrite createPermissions_Some. simpl.
    replace (ds1 ++ d1 :: ds2 ++ d2 :: ds3)%list
      with ((ds1 ++ d1 :: ds2) ++ d2 :: ds3)%list by by rewrite <- app_assoc.
    by apply registry_of_last. }
  split.
  - rewrite (can_registered _ _ _ _ _ Hreg).
    rewrite can_def_single by by apply is_undefined_false.
    apply can_single_unknown. by apply has_property_false.
  - intros actor. exists (mkGet (accessor d2)).
    split; [by apply get_registered|]. by apply accessor_get_None.
Qed.

(** X10.  After any sequence of uses, a name resolves as it did at the start: an
    unknown resource stays unknown, and a registered one is still
    dispatched to the same definition. *)
Theorem resolution_is_stable (us : list use) st R :
  (defs st !! R = None →
     get R (run_uses us st) = (Throw (unknown_resource R), run_uses us st) ∧
     ∀ actionOrCtx (c : option value),
       can R actionOrCtx c (run_uses us st)
         = (Throw (unknown_resource R), run_uses us st)) ∧
  (∀ def, defs st !! R = Some def →
     get R (run_uses us st) = (Return (mkGet (accessor def)), run_uses us st) ∧
     ∀ actionOrCtx (c : option value),
       can R actionOrCtx c (run_uses us st)
         = can_def def R actionOrCtx c (run_uses us st)).
Proof.
  assert (Hdefs : defs (run_uses us st) = defs st).
  { unfold run_uses. apply foldl_defs, run_use_defs. }
  split.
  - intros Hnone. rewrite <- Hdefs in Hnone. split.
    + by apply get_unregistered.
    + intros. by apply can_unregistered.
  - intros def Hdef. rewrite <- Hdefs in Hdef. split.
    + by apply get_registered.
    + intros. by apply can_registered.
Qed.
End Frame.

(** ** The shapes of a dispatch, case by case *)

Section Cases.
Context {W : Type}.
Implicit Types (st : State W) (def : PermissionDefinition W).
Implicit Types (R A : string) (h : ActionHandler W) (a ctx : value).

(** X11.  On a registered resource and with a defined context, what the
    call [can(R, A, ctx)] does is decided by the action name and the keys of
    the handlers object.  A declared action runs its handler on [ctx], and
    the call ends as the handler ends.  A name that is not declared but is
    inherited from [Object.prototype] passes the [in] test: for [__proto__]
    the read gives an object and the call throws a [TypeError]; for
    [toLocaleString] the built-in calls [this.toString()], so a declared
    [toString] handler runs, on no argument; for the others the built-in of
    that name is called.  Any other name throws the unknown-action error. *)
Theorem single_action_cases st R def A ctx :
  defs st !! R = Some def →
  ctx ≠ VUndefined →
  match handlers def !! A with
  | Some h =>
      ∀ c w', h ctx (world st) = (c, w') →
        can R (VStr A) (Some ctx) st
          = (verdict_completion c, mkState (defs st) w')
  | None =>
      if decide (A = "__proto__") then
        ∃ msg, can R (VStr A) (Some ctx) st = (Throw (TypeError msg), st)
      else if decide (A = "toLocaleString") then
        match handlers def !! "toString" with
        | Some h =>
            ∀ c w', h VUndefined (world st) = (c, w') →
              can R (VStr A) (Some ctx) st
                = (verdict_completion c, mkState (defs st) w')
        | None => can R (VStr A) (Some ctx) st = (Native A ctx, st)
        end
      else if bool_decide (A ∈ object_prototype_keys) then
        can R (VStr A) (Some ctx) st = (Native A ctx, st)
      else
        can R (VStr A) (Some ctx) st = (Throw (unknown_action A R), st)
  end.
Proof.
  intros Hdef Hctx.
  rewrite (can_registered _ _ _ _ _ Hdef).
  rewrite can_def_single by by apply is_undefined_false.
  simpl param.
  destruct (handlers def !! A) as [h|] eqn:HA.
  { intros c w' Hc. rewrite (can_single_own _ _ _ _ _ HA).
    apply as_verdict_eq. by apply invoke_eq. }
  destruct (decide (A = "__proto__")) as [->|Hproto].
  { by apply can_single_proto. }
  destruct (decide (A = "toLocaleString")) as [->|Hlocale].
  { destruct (handlers def !! "toString") as [h|] eqn:Hts.
    - intros c w' Hc. rewrite (can_single_locale _ _ _ _ _ HA Hts).
      apply as_verdict_eq. by apply invoke_eq.
    - apply can_single_inherited; try done.
      unfold object_prototype_keys. set_solver. }
  case_bool_decide as Hin.
  - by apply can_single_inherited.
  - apply can_single_unknown. by apply has_property_false.
Qed.


(** X13.  For a handlers object without an own key [__proto__], the invoker
    of [get(R).can(actor)] and the action object of [can(R, ctx)] carry the
    same names, whatever the actor and the context: the own keys of both
    are the declared action names, and a name has a method on the one
    exactly when it has an accessor on the other, which is exactly when the
    definition declares it. *)
Theorem invoker_and_action_object_names def a ctx :
  handlers def !! "__proto__" = None →
  obj_keys (accessor def a) = dom (handlers def) ∧
  obj_keys (action_object def ctx) = dom (handlers def) ∧
  ∀ A, (is_Some (obj_get (accessor def a) A) ↔ is_Some (handlers def !! A)) ∧
       (is_Some (obj_get (action_object def ctx) A)
          ↔ is_Some (handlers def !! A)).
Proof.
  intros Hproto. apply not_elem_of_dom in Hproto.
  split; [rewrite accessor_keys; set_solver|].
  split; [rewrite action_object_keys; set_solver|].
  intros A. destruct (handlers def !! A) as [h|] eqn:HA.
  - rewrite (accessor_get _ _ _ _ HA), (action_object_get _ _ _ _ HA).
    split; split; eauto.
  - rewrite (accessor_get_None _ _ _ HA), (action_object_get_None _ _ _ HA).
    done.
Qed.

(** X14.  A definition with no handler at all is a registered resource with
    nothing to call: [get] and the batch shape return objects without any
    method, and the single-action shape knows no action, apart from the
    names inherited from [Object.prototype]. *)
Theorem empty_definition st R def :
  defs st !! R = Some def →
  handlers def = ∅ →
  (∀ a, ∃ g, get R st = (Return g, st) ∧
             obj_keys (get_can g a) = ∅ ∧
             ∀ A, obj_get (get_can g a) A = None) ∧
  (∀ ctx, ∃ o, can R ctx None st = (Return (Actions o), st) ∧
               obj_keys o = ∅ ∧ ∀ A, obj_get o A = None) ∧
  (∀ A ctx, ctx ≠ VUndefined → A ∉ object_prototype_keys →
     can R (VStr A) (Some ctx) st = (Throw (unknown_action A R), st)).
Proof.
  intros Hdef Hempty.
  assert (Hnone : ∀ A, handlers def !! A = None)
    by (intros A; by rewrite Hempty, lookup_empty).
  split; [|split].
  - intros a. exists (mkGet (accessor def)).
    split; [by apply get_registered|]. simpl. split.
    + rewrite accessor_keys, Hempty, dom_empty_L. set_solver.
    + intros A. by apply accessor_get_None.
  - intros ctx. exists (action_object def ctx). split.
    { rewrite (can_registered _ _ _ _ _ Hdef).
      by rewrite can_def_batch by by right. }
    split.
    + rewrite action_object_keys, Hempty, dom_empty_L. set_solver.
    + intros A. by apply action_object_get_None.
  - intros A ctx Hctx Hproto.
    rewrite (can_registered _ _ _ _ _ Hdef).
    rewrite can_def_single by by apply is_undefined_false.
    apply can_single_unknown. by apply has_property_false.
Qed.
End Cases.

(** ** The further properties on the instances *)

Lemma registry_entries_are_inputs_witness :
  let st := (createPermissions (Some [postDef; userDef; lockedPostDef])
               fresh).2 in
  defs st !! "post" = Some lockedPostDef ∧
  lockedPostDef ∈ [postDef; userDef; lockedPostDef] ∧
  resource lockedPostDef = "post".
Proof.
  intros st.
  assert (Hentry : defs st !! "post" = Some lockedPostDef)
    by (vm_compute; reflexivity).
  split; [exact Hentry|].
  exact (registry_entries_are_inputs
           [postDef; userDef; lockedPostDef] "post" lockedPostDef fresh Hentry).
Defined.

Lemma empty_registry_rejects_all_witness :
  default [] (@None (list (PermissionDefinition nat))) = [] ∧
  let st := (createPermissions None fresh).2 in
  defs st = ∅ ∧
  (∀ R, get R st = (Throw (unknown_resource R), st)) ∧
  (∀ R actionOrCtx (c : option value),
     can R actionOrCtx c st = (Throw (unknown_resource R), st)).
Proof.
  split; [reflexivity|].
  apply (empty_registry_rejects_all None fresh). reflexivity.
Defined.

Lemma construction_is_self_contained_witness :
  world permissions = world fresh ∧
  (createPermissions (Some [vaultDef]) permissions).1 = Return () ∧
  world (createPermissions (Some [vaultDef]) permissions).2
    = world permissions ∧
  createPermissions (Some [vaultDef]) permissions
    = createPermissions (Some [vaultDef]) fresh.
Proof.
  split; [vm_compute; reflexivity|].
  apply (construction_is_self_contained (Some [vaultDef]) permissions fresh).
  vm_compute; reflexivity.
Defined.

Lemma registration_order_irrelevant_witness :
  NoDup (resource <$> [postDef; userDef]) ∧
  [postDef; userDef] ≡ₚ [userDef; postDef] ∧
  createPermissions (Some [postDef; userDef]) fresh
    = createPermissions (Some [userDef; postDef]) fresh.
Proof.
  assert (Hnodup : NoDup (resource <$> [postDef; userDef])).
  { apply (bool_decide_unpack _). vm_compute. exact I. }
  assert (Hperm : [postDef; userDef] ≡ₚ [userDef; postDef])
    by apply perm_swap.
  split; [exact Hnodup|]. split; [exact Hperm|].
  exact (registration_order_irrelevant _ _ fresh Hnodup Hperm).
Defined.

Lemma define_register_dispatch_witness :
  let H : gmap string (ActionHandler nat) := <["create" := post_create]> ∅ in
  let ctx := VObj [("actor", admin)] in
  let st := (createPermissions
               (Some [createPermissionDefinition "post" H]) fresh).2 in
  H !! "create" = Some post_create ∧
  ctx ≠ VUndefined ∧
  defs st = {["post" := createPermissionDefinition "post" H]} ∧
  (∀ c w', post_create ctx (world st) = (c, w') →
     can "post" (VStr "create") (Some ctx) st
       = (verdict_completion c, mkState (defs st) w')) ∧
  (∀ R', R' ≠ "post" → get R' st = (Throw (unknown_resource R'), st)) ∧
  (∀ R' actionOrCtx (c : option value), R' ≠ "post" →
     can R' actionOrCtx c st = (Throw (unknown_resource R'), st)).
Proof.
  intros H ctx st.
  split; [vm_compute; reflexivity|]. split; [discriminate|].
  apply (define_register_dispatch "post" H "create" post_create ctx fresh).
  - vm_compute; reflexivity.
  - discriminate.
Defined.

Lemma other_resources_do_not_interfere_witness :
  let st := (createPermissions
               (Some ([postDef] ++ [userDef; probeDef] ++ [lockedPostDef])%list)
               fresh).2 in
  let st' := (createPermissions (Some ([postDef] ++ [lockedPostDef])%list)
                fresh).2 in
  (∀ d, d ∈ [userDef; probeDef] → resource d ≠ "post") ∧
  defs st !! "post" = defs st' !! "post" ∧
  (get "post" st).1 = (get "post" st').1 ∧
  ∀ actionOrCtx (c : option value),
    (can "post" actionOrCtx c st).1 = (can "post" actionOrCtx c st').1 ∧
    world (can "post" actionOrCtx c st).2
      = world (can "post" actionOrCtx c st').2.
Proof.
  intros st st'.
  assert (Hothers : ∀ d, d ∈ [userDef; probeDef] → resource d ≠ "post").
  { intros d Hd. apply elem_of_cons in Hd as [->|Hd].
    - vm_compute. discriminate.
    - apply list_elem_of_singleton in Hd. subst d. vm_compute. discriminate. }
  split; [exact Hothers|].
  exact (other_resources_do_not_interfere
           [postDef] [userDef; probeDef] [lockedPostDef] "post" fresh Hothers).
Defined.

Lemma replaced_definition_is_hidden_witness :
  let ctx := VObj [("actor", admin)] in
  let st := (createPermissions
               (Some ([] ++ postDef :: [userDef] ++ lockedPostDef :: [])%list)
               fresh).2 in
  resource postDef = resource lockedPostDef ∧
  handlers postDef !! "publish" = Some post_publish ∧
  handlers lockedPostDef !! "publish" = None ∧
  ("publish" ∉ object_prototype_keys) ∧
  can "post" (VStr "publish") (Some ctx) st
    = (Throw (unknown_action "publish" "post"), st) ∧
  ∀ actor, ∃ g, get "post" st = (Return g, st) ∧
                obj_get (get_can g actor) "publish" = None.
Proof.
  intros ctx st.
  assert (Hproto : "publish" ∉ object_prototype_keys).
  { apply (bool_decide_unpack _). vm_compute. exact I. }
  split; [reflexivity|]. split; [vm_compute; reflexivity|].
  split; [vm_compute; reflexivity|]. split; [exact Hproto|].
  apply (replaced_definition_is_hidden
           [] postDef [userDef] lockedPostDef [] fresh "publish" ctx).
  - reflexivity.
  - intros d Hd. by apply elem_of_nil in Hd.
  - vm_compute; reflexivity.
  - exact Hproto.
  - discriminate.
Defined.

Lemma resolution_is_stable_witness :
  let us := [UseCan "post" (VStr "create") (Some (VObj [("actor", admin)])) [];
             UseGet "post" guest [("publish", None, None)]] in
  defs permissions !! "missing" = None ∧
  defs permissions !! "post" = Some postDef ∧
  world (run_uses us permissions) = 2 ∧
  get "missing" (run_uses us permissions)
    = (Throw (unknown_resource "missing"), run_uses us permissions) ∧
  get "post" (run_uses us permissions)
    = (Return (mkGet (accessor postDef)), run_uses us permissions).
Proof.
  intros us.
  assert (Hmissing : defs permissions !! "missing" = None)
    by (vm_compute; reflexivity).
  assert (Hpost : defs permissions !! "post" = Some postDef)
    by (vm_compute; reflexivity).
  split; [exact Hmissing|]. split; [exact Hpost|].
  split; [vm_compute; reflexivity|].
  split.
  - exact (proj1 (proj1 (resolution_is_stable us permissions "missing")
                    Hmissing)).
  - exact (proj1 (proj2 (resolution_is_stable us permissions "post")
                    postDef Hpost)).
Defined.

Lemma single_action_cases_witness :
  let ctx := VObj [("actor", guest)] in
  defs oddities !! "text" = Some textDef ∧
  ctx ≠ VUndefined ∧
  handlers textDef !! "toLocaleString" = None ∧
  handlers textDef !! "toString" = Some returns_zero ∧
  (∀ c w', returns_zero VUndefined (world oddities) = (c, w') →
     can "text" (VStr "toLocaleString") (Some ctx) oddities
       = (verdict_completion c, mkState (defs oddities) w')) ∧
  can "text" (VStr "toLocaleString") (Some ctx) oddities
    = (Return (Verdict (VNum 0)), mkState (defs oddities) 1).
Proof.
  intros ctx.
  assert (Hdef : defs oddities !! "text" = Some textDef)
    by (vm_compute; reflexivity).
  assert (Hctx : ctx ≠ VUndefined) by discriminate.
  pose proof (single_action_cases oddities "text" textDef "toLocaleString"
                ctx Hdef Hctx) as Hcases.
  split; [exact Hdef|]. split; [exact Hctx|].
  split; [vm_compute; reflexivity|]. split; [vm_compute; reflexivity|].
  split; [exact Hcases|].
  apply (Hcases (Return (VNum 0)) 1). reflexivity.
Defined.

Lemma invoker_and_action_object_names_witness :
  handlers postDef !! "__proto__" = None ∧
  obj_keys (accessor postDef admin) = dom (handlers postDef) ∧
  obj_keys (action_object postDef (VObj [("actor", guest)]))
    = dom (handlers postDef) ∧
  ∀ A, (is_Some (obj_get (accessor postDef admin) A)
          ↔ is_Some (handlers postDef !! A)) ∧
       (is_Some (obj_get (action_object postDef (VObj [("actor", guest)])) A)
          ↔ is_Some (handlers postDef !! A)).
Proof.
  split; [vm_compute; reflexivity|].
  apply (invoker_and_action_object_names postDef admin
           (VObj [("actor", guest)])).
  vm_compute; reflexivity.
Defined.


Lemma empty_definition_witness :
  defs guarded !! "nothing" = Some nothingDef ∧
  handlers nothingDef = ∅ ∧
  (∀ a, ∃ g, get "nothing" guarded = (Return g, guarded) ∧
             obj_keys (get_can g a) = ∅ ∧
             ∀ A, obj_get (get_can g a) A = None) ∧
  (∀ ctx, ∃ o, can "nothing" ctx None guarded = (Return (Actions o), guarded) ∧
               obj_keys o = ∅ ∧ ∀ A, obj_get o A = None) ∧
  (∀ A ctx, ctx ≠ VUndefined → A ∉ object_prototype_keys →
     can "nothing" (VStr A) (Some ctx) guarded
       = (Throw (unknown_action A "nothing"), guarded)).
Proof.
  split; [vm_compute; reflexivity|]. split; [reflexivity|].
  apply (empty_definition guarded "nothing" nothingDef).
  - vm_compute; reflexivity.
  - reflexivity.
Defined.
